(** * RuntimeLoader: the singleton loader of the Rive WASM runtime

    A shallow embedding of [js/src/runtime-loader/RuntimeLoader.ts].

    The class has only static members, so its state is one record, threaded
    explicitly.  The loader is event driven: [loadRuntime] calls the module
    factory [rc.default], which returns a promise, and attaches a [then] and a
    [catch] handler to it.  The synchronous part of every method is a function
    on the state; the two handlers are functions of their own, run by the
    events [InitResolved] and [InitRejected] of the environment.

    User callbacks are arbitrary closures.  What matters to the loader is the
    sequence of loader calls a callback makes when it runs, so a callback is
    represented by a label and that sequence (callbacks return normally). *)

From Stdlib Require Import List String Ascii Bool Arith Lia.
Import ListNotations.
Local Open Scope string_scope.
Local Open Scope list_scope.
Set Warnings "-register-all".

(** ** Host language *)

(** The letters [A]-[Z]. *)
Definition isUpper (c : ascii) : bool :=
  let n := nat_of_ascii c in ((65 <=? n) && (n <=? 90))%nat.

Definition lowerAscii (c : ascii) : ascii :=
  if isUpper c then ascii_of_nat (nat_of_ascii c + 32) else c.

(** [String.prototype.toLowerCase] on ASCII text, which is what URLs are made
    of: the letters [A]-[Z] go to [a]-[z], everything else stays. *)
Fixpoint toLowerCase (s : string) : string :=
  match s with
  | EmptyString => EmptyString
  | String c rest => String (lowerAscii c) (toLowerCase rest)
  end.

(** Does the string have a letter that [toLowerCase] changes? *)
Fixpoint hasUpper (s : string) : bool :=
  match s with
  | EmptyString => false
  | String c rest => isUpper c || hasUpper rest
  end.

(** The two fields of [package.json] the loader reads. *)
Record PackageData : Type := mkPackageData {
  name : string;
  version : string
}.

(** A loaded runtime, [rc.RiveCanvas]: an object (so truthy), known by its
    identity. *)
Definition RiveCanvas : Type := nat.

(** What a static field of type [rc.RiveCanvas] holds: [None] is [undefined]. *)
Definition Value : Type := option RiveCanvas.

(** ** Callbacks *)

(** A call of the public interface of the loader. *)
Inductive Call : Type :=
| GetInstance (label : nat) (body : list Call)
    (* RuntimeLoader.getInstance(f), f labelled [label] making the calls [body] *)
| AwaitInstance
    (* RuntimeLoader.awaitInstance() *)
| SetWasmUrl (url : string).
    (* RuntimeLoader.setWasmUrl(url) *)

(** [RuntimeCallback = (rive: rc.RiveCanvas) => void].  Two kinds of closure
    reach the queue: a user function, and the arrow function
    [(rive) => resolve(rive)] that [awaitInstance] makes for its promise. *)
Inductive RuntimeCallback : Type :=
| Fn (label : nat) (body : list Call)
| PromiseResolve (p : nat).

(** The state of a promise returned by [awaitInstance]. *)
Inductive PromiseState : Type :=
| Pending
| Fulfilled (v : Value)
| Rejected.

(** Where a callback was called from: line 78 (the drain loop of the [then]
    handler) or line 117 (the synchronous branch of [getInstance]). *)
Inductive Site : Type := AtDrain | AtGetInstance.

Record Invocation : Type := mkInvocation {
  site : Site;
  callee : RuntimeCallback;
  arg : Value
}.

Inductive LogEntry : Type :=
| Warn (message : string)
| Error (message : string).

(** ** State *)

(** The four static fields the class uses ([rive] is declared and never
    touched), then the environment: the promises of [rc.default] that have not
    settled, and the history the properties below speak about. *)
Record State : Type := mkState {
  runtime : Value;
  isLoading : bool;
  callBackQueue : list RuntimeCallback;
  wasmURL : string;
  inFlight : nat;                  (* rc.default() promises not yet settled *)
  initCalls : list string;         (* wasmURL at each call of rc.default, oldest first *)
  promises : list PromiseState;    (* the promises awaitInstance has returned *)
  enqueued : list RuntimeCallback; (* every callback pushed at line 115, oldest first *)
  invoked : list Invocation;       (* callback calls, oldest first *)
  console : list LogEntry          (* console.warn and console.error, oldest first *)
}.

Definition set_runtime (v : Value) (s : State) : State :=
  mkState v (isLoading s) (callBackQueue s) (wasmURL s) (inFlight s)
          (initCalls s) (promises s) (enqueued s) (invoked s) (console s).

Definition set_isLoading (b : bool) (s : State) : State :=
  mkState (runtime s) b (callBackQueue s) (wasmURL s) (inFlight s)
          (initCalls s) (promises s) (enqueued s) (invoked s) (console s).

Definition set_callBackQueue (q : list RuntimeCallback) (s : State) : State :=
  mkState (runtime s) (isLoading s) q (wasmURL s) (inFlight s)
          (initCalls s) (promises s) (enqueued s) (invoked s) (console s).

(** [callBackQueue.push(callback)]. *)
Definition push (callback : RuntimeCallback) (s : State) : State :=
  mkState (runtime s) (isLoading s) (callBackQueue s ++ [callback]) (wasmURL s)
          (inFlight s) (initCalls s) (promises s) (enqueued s ++ [callback])
          (invoked s) (console s).

Definition set_inFlight (n : nat) (s : State) : State :=
  mkState (runtime s) (isLoading s) (callBackQueue s) (wasmURL s) n
          (initCalls s) (promises s) (enqueued s) (invoked s) (console s).

Definition set_promises (ps : list PromiseState) (s : State) : State :=
  mkState (runtime s) (isLoading s) (callBackQueue s) (wasmURL s) (inFlight s)
          (initCalls s) ps (enqueued s) (invoked s) (console s).

Definition called (st : Site) (cb : RuntimeCallback) (v : Value) (s : State) : State :=
  mkState (runtime s) (isLoading s) (callBackQueue s) (wasmURL s) (inFlight s)
          (initCalls s) (promises s) (enqueued s) (invoked s ++ [mkInvocation st cb v])
          (console s).

Definition log (e : LogEntry) (s : State) : State :=
  mkState (runtime s) (isLoading s) (callBackQueue s) (wasmURL s) (inFlight s)
          (initCalls s) (promises s) (enqueued s) (invoked s) (console s ++ [e]).

(** ** The methods *)

(** [setWasmUrl(url)]: one assignment. *)
Definition setWasmUrl (url : string) (s : State) : State :=
  mkState (runtime s) (isLoading s) (callBackQueue s) url (inFlight s)
          (initCalls s) (promises s) (enqueued s) (invoked s) (console s).

(** [locateFile: () => RuntimeLoader.wasmURL].  The closure reads the field
    when the module calls it, not when [rc.default] is called. *)
Definition locateFile (s : State) : string := wasmURL s.

(** [loadRuntime()], the synchronous part: [rc.default({locateFile})] is
    called and the handlers are attached to the promise it returns. *)
Definition loadRuntime (s : State) : State :=
  mkState (runtime s) (isLoading s) (callBackQueue s) (wasmURL s) (S (inFlight s))
          (initCalls s ++ [locateFile s]) (promises s) (enqueued s) (invoked s) (console s).

(** [resolve(v)] of promise [p]: settles it if it is pending, else nothing. *)
Fixpoint resolveAt (p : nat) (v : Value) (ps : list PromiseState) {struct ps}
  : list PromiseState :=
  match ps with
  | [] => []
  | q :: rest =>
      match p with
      | 0 => match q with Pending => Fulfilled v | _ => q end :: rest
      | S p' => q :: resolveAt p' v rest
      end
  end.

Definition resolve (p : nat) (v : Value) (s : State) : State :=
  set_promises (resolveAt p v (promises s)) s.

(** Lines 110-113: the first call starts the load, and sets the flag. *)
Definition ensureLoading (s : State) : State :=
  if negb (isLoading s) then loadRuntime (set_isLoading true s) else s.

Section GetInstance.

(** What running the callback does to the loader. *)
Variable run : Value -> State -> State.

(** [getInstance(callback)], lines 108-119. *)
Definition getInstanceWith (callback : RuntimeCallback) (s : State) : State :=
  let s1 := ensureLoading s in
  match runtime s1 with
  | None => push callback s1
  | Some rive => run (Some rive) (called AtGetInstance callback (Some rive) s1)
  end.

End GetInstance.

(** One call of the interface.  [awaitInstance] makes a promise and runs its
    executor at once, which calls [getInstance] with the resolving arrow
    function. *)
Fixpoint runCall (c : Call) (s : State) {struct c} : State :=
  match c with
  | GetInstance label body =>
      getInstanceWith
        (fun _ =>
           (fix runBody (cs : list Call) (s : State) {struct cs} : State :=
              match cs with
              | [] => s
              | c' :: cs' => runBody cs' (runCall c' s)
              end) body)
        (Fn label body) s
  | AwaitInstance =>
      let p := List.length (promises s) in
      getInstanceWith (resolve p) (PromiseResolve p)
                      (set_promises (promises s ++ [Pending]) s)
  | SetWasmUrl url => setWasmUrl url s
  end.

Fixpoint runCalls (cs : list Call) (s : State) : State :=
  match cs with
  | [] => s
  | c :: cs' => runCalls cs' (runCall c s)
  end.

(** [callback(v)]: the body of the callback. *)
Definition apply (callback : RuntimeCallback) (v : Value) (s : State) : State :=
  match callback with
  | Fn _ body => runCalls body s
  | PromiseResolve p => resolve p v s
  end.

Definition getInstance (callback : RuntimeCallback) (s : State) : State :=
  getInstanceWith (apply callback) callback s.

Definition awaitInstance (s : State) : State :=
  getInstance (PromiseResolve (List.length (promises s)))
              (set_promises (promises s ++ [Pending]) s).

(** The loop of lines 77-79.  [shift()] takes the head of the queue, then the
    callback is called with the field [runtime] as it is at that moment.  The
    loop tests the queue again after every call; [fuel] bounds the number of
    iterations and [None] means it ran out. *)
Fixpoint drain (fuel : nat) (s : State) : option State :=
  match callBackQueue s with
  | [] => Some s
  | callback :: rest =>
      match fuel with
      | 0 => None
      | S fuel' =>
          let s1 := set_callBackQueue rest s in
          drain fuel' (apply callback (runtime s1)
                             (called AtDrain callback (runtime s1) s1))
      end
  end.

(** The [then] handler, lines 74-80. *)
Definition loadRuntime_then (fuel : nat) (rive : RiveCanvas) (s : State) : option State :=
  drain fuel (set_runtime (Some rive) s).

(** The message of line 94.  The string literal is continued over three
    lines, and the indentation of the continuation lines is part of it. *)
Definition errorMessage : string :=
  ("Could not load Rive WASM file from unpkg or jsdelivr, network connection may be down, or "
   ++ "        you may need to call set a new WASM source via RuntimeLoader.setWasmUrl() and call "
   ++ "        RuntimeLoader.loadRuntime() again")%string.

(** What the environment can do: call the interface, or settle a promise of
    [rc.default] that is in flight. *)
Inductive Event : Type :=
| Called (c : Call)
| InitResolved (rive : RiveCanvas)
| InitRejected.

Section Package.

Variable packageData : PackageData.

Definition unpkgUrl : string :=
  ("https://unpkg.com/" ++ name packageData ++ "@" ++ version packageData
     ++ "/rive.wasm")%string.

Definition backupJsdelivrUrl : string :=
  ("https://cdn.jsdelivr.net/npm/" ++ name packageData ++ "@"
     ++ version packageData ++ "/rive_fallback.wasm")%string.

(** The test of line 86. *)
Definition tryBackup (s : State) : bool :=
  negb (String.eqb (toLowerCase (wasmURL s)) backupJsdelivrUrl).

(** The [catch] handler, lines 81-99.  It is chained after [then], so it
    would also run if a callback threw inside the loop; callbacks are taken
    to return normally, and the handler runs when [rc.default] rejects. *)
Definition loadRuntime_catch (s : State) : State :=
  if tryBackup s then
    loadRuntime
      (setWasmUrl backupJsdelivrUrl
         (log (Warn ("Failed to load WASM from " ++ wasmURL s
                       ++ ", trying jsdelivr as a backup")%string) s))
  else
    log (Error errorMessage) s.

(** The static initialisers. *)
Definition initial : State :=
  mkState None false [] unpkgUrl 0 [] [] [] [] [].

(** One event.  A promise of [rc.default] can settle only if one is in
    flight; [fuel] is for the loop of the [then] handler. *)
Definition exec (fuel : nat) (e : Event) (s : State) : option State :=
  match e with
  | Called c => Some (runCall c s)
  | InitResolved rive =>
      match inFlight s with
      | 0 => None
      | S n => loadRuntime_then fuel rive (set_inFlight n s)
      end
  | InitRejected =>
      match inFlight s with
      | 0 => None
      | S n => Some (loadRuntime_catch (set_inFlight n s))
      end
  end.

Fixpoint execAll (fuel : nat) (es : list Event) (s : State) : option State :=
  match es with
  | [] => Some s
  | e :: es' =>
      match exec fuel e s with
      | None => None
      | Some s' => execAll fuel es' s'
      end
  end.

Definition reachable (s : State) : Prop :=
  exists fuel es, execAll fuel es initial = Some s.

End Package.

(** ** Measures and views of the history *)

(** The number of calls a callback can make, itself included: every call of
    the drain loop uses up at least one. *)
Fixpoint sizeCall (c : Call) : nat :=
  match c with
  | GetInstance _ body => S (list_sum (map sizeCall body))
  | AwaitInstance => 1
  | SetWasmUrl _ => 1
  end.

Definition size (callback : RuntimeCallback) : nat :=
  match callback with
  | Fn _ body => S (list_sum (map sizeCall body))
  | PromiseResolve _ => 1
  end.

Definition weight (q : list RuntimeCallback) : nat := list_sum (map size q).

Definition atDrain (i : Invocation) : bool :=
  match site i with AtDrain => true | AtGetInstance => false end.

(** The calls made by the drain loop, oldest first. *)
Definition drained (s : State) : list Invocation := filter atDrain (invoked s).

Definition registerAll (cbs : list RuntimeCallback) (s : State) : State :=
  fold_left (fun s cb => getInstance cb s) cbs s.

(** ** Promises of [awaitInstance] and their callbacks *)

Definition isResolverOf (p : nat) (callback : RuntimeCallback) : bool :=
  match callback with
  | PromiseResolve q => Nat.eqb p q
  | Fn _ _ => false
  end.

Definition queuedResolvers (p : nat) (s : State) : nat :=
  List.length (filter (isResolverOf p) (callBackQueue s)).

(** The arguments the resolving function of promise [p] was called with. *)
Definition resolutions (p : nat) (s : State) : list Value :=
  map arg (filter (fun i => isResolverOf p (callee i)) (invoked s)).

(** Promise [p] and its callback agree: pending while the callback waits in
    the queue, fulfilled with [v] once it has been called, once, with [v]. *)
Definition promiseOK (s : State) (p : nat) : Prop :=
  match nth_error (promises s) p with
  | None => queuedResolvers p s = 0 /\ resolutions p s = []
  | Some Pending => queuedResolvers p s = 1 /\ resolutions p s = []
  | Some (Fulfilled v) =>
      queuedResolvers p s = 0 /\ resolutions p s = [v]
      /\ v = runtime s /\ v <> None
  | Some Rejected => False
  end.

(** What holds of every state the loader can be in. *)
Record Inv (s : State) : Prop := mkInv {
  inv_single : inFlight s <= 1;
  inv_idle : isLoading s = false -> inFlight s = 0 /\ runtime s = None;
  inv_ready : runtime s <> None -> inFlight s = 0;
  inv_args : Forall (fun i => arg i = runtime s /\ arg i <> None) (invoked s);
  inv_promises : forall p, promiseOK s p
}.

(** The loader has given up: a load was started, none is in flight, and no
    runtime was stored. *)
Definition failedTerminally (s : State) : Prop :=
  isLoading s = true /\ runtime s = None /\ inFlight s = 0.

Ltac fields :=
  unfold push, called, log, setWasmUrl, loadRuntime, resolve, set_runtime,
    set_isLoading, set_callBackQueue, set_inFlight, set_promises, locateFile in *;
  cbn [runtime isLoading callBackQueue wasmURL inFlight initCalls promises
       enqueued invoked console] in *.

(** ** What a call of the interface is made of *)

(** The elementary changes of state that calls of the interface consist of.
    The two changes of [awaitInstance] come as one step each: the promise is
    made and its callback queued, or made and its callback called. *)
Inductive apiStep : State -> State -> Prop :=
| step_setWasmUrl url s :
    apiStep s (setWasmUrl url s)
| step_load s :
    isLoading s = false ->
    apiStep s (loadRuntime (set_isLoading true s))
| step_push_fn label body s :
    runtime s = None ->
    apiStep s (push (Fn label body) s)
| step_call_fn label body rive s :
    runtime s = Some rive ->
    apiStep s (called AtGetInstance (Fn label body) (Some rive) s)
| step_await_push s :
    runtime s = None ->
    apiStep s (push (PromiseResolve (List.length (promises s)))
                    (set_promises (promises s ++ [Pending]) s))
| step_await_call rive s :
    runtime s = Some rive ->
    apiStep s (resolve (List.length (promises s)) (Some rive)
                 (called AtGetInstance (PromiseResolve (List.length (promises s)))
                         (Some rive)
                         (set_promises (promises s ++ [Pending]) s))).

Inductive apiSteps : State -> State -> Prop :=
| steps_nil s : apiSteps s s
| steps_cons s1 s2 s3 : apiStep s1 s2 -> apiSteps s2 s3 -> apiSteps s1 s3.

Create HintDb loader.
#[local] Hint Constructors apiStep apiSteps : loader.

(** ** What calls of the interface leave alone *)

(** No call stores or clears the runtime or writes to the console, and once
    the flag is set no call starts a load. *)
Definition keepsLoad (s s' : State) : Prop :=
  runtime s' = runtime s /\ console s' = console s
  /\ inFlight s <= inFlight s'
  /\ (isLoading s = true ->
      isLoading s' = true /\ inFlight s' = inFlight s /\ initCalls s' = initCalls s).

(** With the runtime stored, calls push nothing; the callbacks they call are
    called from [getInstance], with the stored runtime. *)
Definition keepsQueue (s s' : State) : Prop :=
  forall rive, runtime s = Some rive ->
    runtime s' = Some rive
    /\ callBackQueue s' = callBackQueue s /\ enqueued s' = enqueued s
    /\ exists l, invoked s' = invoked s ++ l
                 /\ Forall (fun i => site i = AtGetInstance /\ arg i = Some rive) l.

(** While no runtime is stored, calls call nothing back: they push, and the
    promises they make stay pending. *)
Definition onlyQueues (s s' : State) : Prop :=
  runtime s = None ->
    runtime s' = None /\ invoked s' = invoked s
    /\ (exists l, callBackQueue s' = callBackQueue s ++ l
                  /\ enqueued s' = enqueued s ++ l)
    /\ exists k, promises s' = promises s ++ repeat Pending k.

(** In any state, calls only add to the queue, at its end, every push is
    recorded, and the callbacks they call are not called from the loop. *)
Definition appendsOnly (s s' : State) : Prop :=
  runtime s' = runtime s /\ drained s' = drained s
  /\ exists l, callBackQueue s' = callBackQueue s ++ l
               /\ enqueued s' = enqueued s ++ l.

(** One turn: the head of the queue is taken off and called. *)
Definition turn (callback : RuntimeCallback) (rest : list RuntimeCallback)
    (s : State) : State :=
  let s1 := set_callBackQueue rest s in
  apply callback (runtime s1) (called AtDrain callback (runtime s1) s1).

Definition isError (e : LogEntry) : bool :=
  match e with Error _ => true | Warn _ => false end.

Definition isWarn (e : LogEntry) : bool :=
  match e with Warn _ => true | Error _ => false end.


(** The bookkeeping of the loader between two events: the queue is empty once
    the runtime is stored; every callback pushed so far has been called by
    the loop or is still queued, in the order of the pushes; the flag is set
    exactly when the module factory has been called; every call of the
    module factory after the first went to the fallback URL and was announced
    by one warning; the error is reported at most once, and then nothing is
    in flight and no runtime is stored. *)
Record Ledger (pkg : PackageData) (s : State) : Prop := mkLedger {
  led_idle : isLoading s = false -> initCalls s = [] /\ console s = [];
  led_started : isLoading s = true -> initCalls s <> [];
  led_ready : runtime s <> None -> callBackQueue s = [];
  led_served : enqueued s = map callee (drained s) ++ callBackQueue s;
  led_flight : inFlight s <= List.length (initCalls s);
  led_retries :
    tl (initCalls s)
    = repeat (backupJsdelivrUrl pkg) (List.length (initCalls s) - 1);
  led_warns :
    List.length (filter isWarn (console s)) = List.length (initCalls s) - 1;
  led_error :
    filter isError (console s) = []
    \/ (filter isError (console s) = [Error errorMessage]
        /\ inFlight s = 0 /\ runtime s = None)
}.


(** ** Sample data *)

Definition canvasPackage : PackageData :=
  mkPackageData "@rive-app/canvas" "2.7.0".

(** A release candidate: the version has upper-case letters. *)
Definition candidatePackage : PackageData :=
  mkPackageData "@rive-app/canvas" "2.7.0-RC1".

Definition cbA : RuntimeCallback := Fn 1 [].
Definition cbB : RuntimeCallback := Fn 2 [GetInstance 20 []; AwaitInstance].
Definition cbC : RuntimeCallback := Fn 3 [SetWasmUrl "https://example.com/other.wasm"].

(** The first request has been made and its load is in flight. *)
Definition loadingState (pkg : PackageData) : State :=
  getInstance cbA (initial pkg).

(** The load of the first request succeeded with runtime [7]. *)
Definition readyState (pkg : PackageData) : State :=
  match exec pkg 1 (InitResolved 7) (loadingState pkg) with
  | Some s => s
  | None => initial pkg
  end.

(** The load of the first request failed, and so did the retry. *)
Definition failedState (pkg : PackageData) : State :=
  match execAll pkg 0 [InitRejected; InitRejected] (loadingState pkg) with
  | Some s => s
  | None => initial pkg
  end.

(** * Proofs *)

(** ** Basic facts *)

Section CallInduction.

Variable P : Call -> Prop.
Hypothesis P_get : forall label body, Forall P body -> P (GetInstance label body).
Hypothesis P_await : P AwaitInstance.
Hypothesis P_set : forall url, P (SetWasmUrl url).

Lemma Call_nested_ind : forall c, P c.
Proof.
  fix IH 1.
  intros [label body | | url].
  - apply P_get.
    induction body as [|c cs IHcs]; constructor.
    + apply IH.
    + exact IHcs.
  - exact P_await.
  - apply P_set.
Qed.

End CallInduction.

Lemma runCall_GetInstance label body s :
  runCall (GetInstance label body) s = getInstance (Fn label body) s.
Proof. reflexivity. Qed.

Lemma runCall_AwaitInstance s : runCall AwaitInstance s = awaitInstance s.
Proof. reflexivity. Qed.

Lemma getInstance_queued cb s :
  runtime s = None -> getInstance cb s = push cb (ensureLoading s).
Proof.
  intros H. unfold getInstance, getInstanceWith.
  replace (runtime (ensureLoading s)) with (runtime s); [now rewrite H|].
  unfold ensureLoading; destruct (isLoading s); reflexivity.
Qed.

Lemma getInstance_ready cb s rive :
  runtime s = Some rive ->
  getInstance cb s
  = apply cb (Some rive) (called AtGetInstance cb (Some rive) (ensureLoading s)).
Proof.
  intros H. unfold getInstance, getInstanceWith.
  replace (runtime (ensureLoading s)) with (runtime s); [now rewrite H|].
  unfold ensureLoading; destruct (isLoading s); reflexivity.
Qed.

Lemma ensureLoading_loading s : isLoading s = true -> ensureLoading s = s.
Proof. intros H; unfold ensureLoading; now rewrite H. Qed.

Lemma ensureLoading_idle s :
  isLoading s = false -> ensureLoading s = loadRuntime (set_isLoading true s).
Proof. intros H; unfold ensureLoading; now rewrite H. Qed.

Lemma ensureLoading_runtime s : runtime (ensureLoading s) = runtime s.
Proof. unfold ensureLoading; destruct (isLoading s); reflexivity. Qed.

Lemma ensureLoading_isLoading s : isLoading (ensureLoading s) = true.
Proof. unfold ensureLoading; destruct (isLoading s) eqn:E; simpl; auto. Qed.

Lemma ensureLoading_set_promises ps s :
  ensureLoading (set_promises ps s) = set_promises ps (ensureLoading s).
Proof.
  unfold ensureLoading; fields.
  destruct (isLoading s) eqn:E; cbn; rewrite ?E; reflexivity.
Qed.

Lemma ensureLoading_promises s : promises (ensureLoading s) = promises s.
Proof. unfold ensureLoading; destruct (isLoading s); reflexivity. Qed.

Lemma apiSteps_trans s1 s2 s3 : apiSteps s1 s2 -> apiSteps s2 s3 -> apiSteps s1 s3.
Proof. induction 1; eauto with loader. Qed.

Lemma apiSteps_one s1 s2 : apiStep s1 s2 -> apiSteps s1 s2.
Proof. eauto with loader. Qed.

Lemma ensureLoading_steps s : apiSteps s (ensureLoading s).
Proof.
  unfold ensureLoading; destruct (isLoading s) eqn:E; simpl.
  - constructor.
  - apply apiSteps_one, step_load, E.
Qed.

Lemma runCalls_steps_of (P : Call -> Prop) cs :
  (forall c, P c -> forall s, apiSteps s (runCall c s)) ->
  Forall P cs -> forall s, apiSteps s (runCalls cs s).
Proof.
  intros HP H; induction H as [|c cs Hc _ IH]; intros s; simpl.
  - constructor.
  - eapply apiSteps_trans; [apply HP, Hc | apply IH].
Qed.

Lemma awaitInstance_steps s : apiSteps s (awaitInstance s).
Proof.
  eapply apiSteps_trans; [apply ensureLoading_steps|].
  apply apiSteps_one.
  destruct (runtime s) as [rive|] eqn:E.
  - unfold awaitInstance.
    rewrite (getInstance_ready _ _ rive) by exact E.
    rewrite ensureLoading_set_promises. cbn [apply].
    rewrite <- (ensureLoading_promises s).
    apply step_await_call. now rewrite ensureLoading_runtime.
  - unfold awaitInstance.
    rewrite getInstance_queued by exact E.
    rewrite ensureLoading_set_promises.
    rewrite <- (ensureLoading_promises s).
    apply step_await_push. now rewrite ensureLoading_runtime.
Qed.

Lemma runCall_steps : forall c s, apiSteps s (runCall c s).
Proof.
  induction c as [label body IH | | url] using Call_nested_ind; intros s.
  - rewrite runCall_GetInstance.
    eapply apiSteps_trans; [apply ensureLoading_steps|].
    destruct (runtime s) as [rive|] eqn:E.
    + rewrite (getInstance_ready _ _ rive) by exact E. cbn [apply].
      eapply steps_cons.
      * apply (step_call_fn label body rive). now rewrite ensureLoading_runtime.
      * apply (runCalls_steps_of (fun c => forall s, apiSteps s (runCall c s)));
          [auto | exact IH].
    + rewrite getInstance_queued by exact E.
      apply apiSteps_one, step_push_fn. now rewrite ensureLoading_runtime.
  - rewrite runCall_AwaitInstance. apply awaitInstance_steps.
  - apply apiSteps_one. simpl. constructor.
Qed.

Lemma runCalls_steps cs : forall s, apiSteps s (runCalls cs s).
Proof.
  induction cs as [|c cs IH]; intros s; simpl.
  - constructor.
  - eapply apiSteps_trans; [apply runCall_steps | apply IH].
Qed.

(** A relation that holds of every step, of no step, and composes, holds of
    every run of steps. *)
Lemma apiSteps_rel (R : State -> State -> Prop) :
  (forall s, R s s) ->
  (forall s1 s2 s3, R s1 s2 -> R s2 s3 -> R s1 s3) ->
  (forall s1 s2, apiStep s1 s2 -> R s1 s2) ->
  forall s1 s2, apiSteps s1 s2 -> R s1 s2.
Proof.
  intros Hrefl Htrans Hstep s1 s2 H; induction H; eauto.
Qed.

Lemma apiSteps_keepsLoad s s' : apiSteps s s' -> keepsLoad s s'.
Proof.
  apply apiSteps_rel; unfold keepsLoad.
  - intuition lia.
  - intros s1 s2 s3 (Hr & Hc & Hle & H12) (Hr' & Hc' & Hle' & H23).
    split; [congruence|]. split; [congruence|]. split; [lia|].
    intros H0; destruct (H12 H0) as (Hl & Hf & Hi).
    destruct (H23 Hl) as (Hl' & Hf' & Hi').
    split; [|split]; congruence.
  - intros s1 s2 Hs; destruct Hs; fields;
      (split; [reflexivity|]; split; [reflexivity|]; split; [lia|]);
      intros H0; try congruence; auto.
Qed.

Lemma apiSteps_keepsQueue s s' : apiSteps s s' -> keepsQueue s s'.
Proof.
  apply apiSteps_rel; unfold keepsQueue.
  - intros s0 rive H; repeat split; auto. exists []; rewrite app_nil_r; auto.
  - intros s1 s2 s3 H12 H23 rive H.
    destruct (H12 rive H) as (Hr & Hq & He & l & Hl & Hf).
    destruct (H23 rive Hr) as (Hr' & Hq' & He' & l' & Hl' & Hf').
    repeat split; try congruence.
    exists (l ++ l'); split.
    + rewrite Hl', Hl, app_assoc; reflexivity.
    + apply Forall_app; auto.
  - intros s1 s2 Hs rive Hr; destruct Hs; fields; try congruence;
      repeat split; auto;
      try (exists []; rewrite app_nil_r; split; [reflexivity | constructor]);
      try (eexists; split; [reflexivity|];
           constructor; [split; [reflexivity | simpl; congruence] | constructor]).
Qed.

Lemma apiSteps_onlyQueues s s' : apiSteps s s' -> onlyQueues s s'.
Proof.
  apply apiSteps_rel; unfold onlyQueues.
  - intros s0 H; repeat split; auto.
    + exists []; now rewrite !app_nil_r.
    + exists 0; simpl; now rewrite app_nil_r.
  - intros s1 s2 s3 H12 H23 H.
    destruct (H12 H) as (Hr & Hi & (l & Hq & He) & k & Hp).
    destruct (H23 Hr) as (Hr' & Hi' & (l' & Hq' & He') & k' & Hp').
    repeat split; try congruence.
    + exists (l ++ l'); rewrite Hq', Hq, He', He, !app_assoc; auto.
    + exists (k + k'). rewrite Hp', Hp, repeat_app, app_assoc; reflexivity.
  - intros s1 s2 Hs Hr; destruct Hs; fields; try congruence; repeat split; auto;
      try (exists []; now rewrite !app_nil_r);
      try (exists 0; simpl; now rewrite app_nil_r);
      try (eexists; split; reflexivity);
      try (exists 1; reflexivity).
Qed.

Lemma apiSteps_appendsOnly s s' : apiSteps s s' -> appendsOnly s s'.
Proof.
  apply apiSteps_rel; unfold appendsOnly.
  - intros s0; repeat split; auto. exists []; now rewrite !app_nil_r.
  - intros s1 s2 s3 (Hr & Hd & l & Hq & He) (Hr' & Hd' & l' & Hq' & He').
    split; [congruence|]. split; [congruence|].
    exists (l ++ l'); rewrite Hq', Hq, He', He, !app_assoc; auto.
  - intros s1 s2 Hs; destruct Hs; unfold drained; fields;
      rewrite ?filter_app; simpl; rewrite ?app_nil_r;
      (split; [reflexivity|]; split; [reflexivity|]);
      try (exists []; now rewrite !app_nil_r);
      try (eexists; split; reflexivity).
Qed.

(** ** Promises and the queue *)

Lemma resolveAt_fresh v ps :
  resolveAt (List.length ps) v (ps ++ [Pending]) = ps ++ [Fulfilled v].
Proof. induction ps as [|q ps IH]; simpl; [reflexivity | now rewrite IH]. Qed.

Lemma nth_error_resolveAt_other v : forall ps p q,
  q <> p -> nth_error (resolveAt p v ps) q = nth_error ps q.
Proof.
  induction ps as [|a ps IH]; intros p q Hne; simpl; [reflexivity|].
  destruct p as [|p]; destruct q as [|q]; simpl; try reflexivity; try lia.
  apply IH; lia.
Qed.

Lemma nth_error_resolveAt_pending v : forall ps p,
  nth_error ps p = Some Pending ->
  nth_error (resolveAt p v ps) p = Some (Fulfilled v).
Proof.
  induction ps as [|a ps IH]; intros [|p] H; simpl in *; try discriminate.
  - now inversion H.
  - apply IH, H.
Qed.

Lemma promiseOK_ext s s' p :
  promises s' = promises s -> callBackQueue s' = callBackQueue s ->
  invoked s' = invoked s -> runtime s' = runtime s ->
  promiseOK s p -> promiseOK s' p.
Proof.
  unfold promiseOK, queuedResolvers, resolutions.
  intros Hp Hq Hi Hr; rewrite Hp, Hq, Hi, Hr; auto.
Qed.

Lemma promiseOK_push_fn label body s p :
  promiseOK s p -> promiseOK (push (Fn label body) s) p.
Proof.
  unfold promiseOK, queuedResolvers, resolutions; fields.
  rewrite filter_app; simpl; rewrite app_nil_r; auto.
Qed.

Lemma promiseOK_called_fn st label body v s p :
  promiseOK s p -> promiseOK (called st (Fn label body) v s) p.
Proof.
  unfold promiseOK, queuedResolvers, resolutions; fields.
  rewrite filter_app; simpl; rewrite app_nil_r; auto.
Qed.

Lemma promiseOK_await_push s p :
  (forall q, promiseOK s q) ->
  promiseOK (push (PromiseResolve (List.length (promises s)))
                  (set_promises (promises s ++ [Pending]) s)) p.
Proof.
  intros H. generalize (H p). generalize (H (List.length (promises s))).
  unfold promiseOK, queuedResolvers, resolutions; fields.
  rewrite filter_app, length_app; simpl.
  destruct (lt_eq_lt_dec p (List.length (promises s))) as [[Hlt|Heq]|Hgt].
  - rewrite nth_error_app1 by exact Hlt.
    replace (Nat.eqb p (List.length (promises s))) with false
      by (symmetry; apply Nat.eqb_neq; lia).
    simpl; rewrite Nat.add_0_r; auto.
  - subst p. rewrite nth_error_app2, Nat.sub_diag, Nat.eqb_refl by lia; simpl.
    replace (nth_error (promises s) (List.length (promises s))) with (@None PromiseState)
      by (symmetry; apply nth_error_None; lia).
    intros [Hq Hr] _; split; [lia | exact Hr].
  - replace (nth_error (promises s ++ [Pending]) p) with (@None PromiseState)
      by (symmetry; apply nth_error_None; rewrite length_app; simpl; lia).
    replace (nth_error (promises s) p) with (@None PromiseState)
      by (symmetry; apply nth_error_None; lia).
    replace (Nat.eqb p (List.length (promises s))) with false
      by (symmetry; apply Nat.eqb_neq; lia).
    simpl; rewrite Nat.add_0_r; auto.
Qed.

Lemma promiseOK_await_call rive s p :
  runtime s = Some rive ->
  (forall q, promiseOK s q) ->
  promiseOK (resolve (List.length (promises s)) (Some rive)
               (called AtGetInstance (PromiseResolve (List.length (promises s)))
                       (Some rive) (set_promises (promises s ++ [Pending]) s))) p.
Proof.
  intros Hrt H. generalize (H p). generalize (H (List.length (promises s))).
  unfold promiseOK, queuedResolvers, resolutions; fields.
  rewrite resolveAt_fresh, filter_app, map_app; simpl.
  destruct (lt_eq_lt_dec p (List.length (promises s))) as [[Hlt|Heq]|Hgt].
  - rewrite nth_error_app1 by exact Hlt.
    replace (Nat.eqb p (List.length (promises s))) with false
      by (symmetry; apply Nat.eqb_neq; lia).
    simpl; rewrite app_nil_r; auto.
  - subst p. rewrite nth_error_app2, Nat.sub_diag, Nat.eqb_refl by lia; simpl.
    replace (nth_error (promises s) (List.length (promises s))) with (@None PromiseState)
      by (symmetry; apply nth_error_None; lia).
    intros [Hq Hr] _; rewrite Hr; simpl.
    repeat split; auto; congruence.
  - replace (nth_error (promises s ++ [Fulfilled (Some rive)]) p) with (@None PromiseState)
      by (symmetry; apply nth_error_None; rewrite length_app; simpl; lia).
    replace (nth_error (promises s) p) with (@None PromiseState)
      by (symmetry; apply nth_error_None; lia).
    replace (Nat.eqb p (List.length (promises s))) with false
      by (symmetry; apply Nat.eqb_neq; lia).
    simpl; rewrite app_nil_r; auto.
Qed.

(** The loop takes the resolving function of promise [p0] off the queue and
    calls it. *)
Lemma promiseOK_shift_resolver rive p0 rest s p :
  runtime s = Some rive ->
  callBackQueue s = PromiseResolve p0 :: rest ->
  (forall q, promiseOK s q) ->
  promiseOK (resolve p0 (runtime s)
               (called AtDrain (PromiseResolve p0) (runtime s)
                       (set_callBackQueue rest s))) p.
Proof.
  intros Hrt Hq H. generalize (H p). generalize (H p0).
  unfold promiseOK, queuedResolvers, resolutions; fields.
  rewrite Hq, filter_app, map_app; simpl. rewrite Nat.eqb_refl; simpl.
  destruct (nth_error (promises s) p0) as [[|v0|]|] eqn:E0;
    try (intros [Hc _]; discriminate); try contradiction.
  intros [Hc0 Hr0] Hp.
  destruct (Nat.eq_dec p p0) as [->|Hne].
  - rewrite (nth_error_resolveAt_pending _ _ _ E0), Nat.eqb_refl, Hr0.
    simpl. injection Hc0 as Hc0. repeat split; auto; congruence.
  - rewrite (nth_error_resolveAt_other _ _ _ _ Hne).
    replace (Nat.eqb p p0) with false in * by (symmetry; apply Nat.eqb_neq; lia).
    simpl; rewrite app_nil_r. exact Hp.
Qed.

Lemma promiseOK_shift_fn label body rest v s p :
  callBackQueue s = Fn label body :: rest ->
  promiseOK s p ->
  promiseOK (called AtDrain (Fn label body) v (set_callBackQueue rest s)) p.
Proof.
  intros Hq. unfold promiseOK, queuedResolvers, resolutions; fields.
  rewrite Hq, filter_app; simpl; rewrite app_nil_r; auto.
Qed.

(** ** The invariant *)

Lemma apiStep_Inv s s' : apiStep s s' -> Inv s -> Inv s'.
Proof.
  intros Hs [H1 H2 H3 H4 H5]; destruct Hs;
    try (destruct (H2 H) as [Hf Hr]);
    constructor;
    try (intros p;
         first [ apply promiseOK_push_fn; solve [auto]
               | apply (promiseOK_called_fn AtGetInstance); solve [auto]
               | apply promiseOK_await_push; solve [auto]
               | apply promiseOK_await_call; solve [auto]
               | apply (promiseOK_ext s); solve [auto] ]);
    fields; auto; try lia; try congruence;
    try (apply Forall_app; split; [exact H4|];
         constructor; [simpl; split; congruence | constructor]).
Qed.

Lemma apiSteps_Inv s s' : apiSteps s s' -> Inv s -> Inv s'.
Proof. induction 1; eauto using apiStep_Inv. Qed.

(** ** One turn of the loop *)

Lemma runCall_weight : forall c s,
  weight (callBackQueue (runCall c s)) <= weight (callBackQueue s) + sizeCall c.
Proof.
  assert (Hlist : forall cs,
    Forall (fun c => forall s,
      weight (callBackQueue (runCall c s)) <= weight (callBackQueue s) + sizeCall c) cs ->
    forall s, weight (callBackQueue (runCalls cs s))
              <= weight (callBackQueue s) + list_sum (map sizeCall cs)).
  { induction 1 as [|c cs Hc _ IH]; intros s; simpl; [lia|].
    specialize (IH (runCall c s)); specialize (Hc s); lia. }
  assert (Hens : forall s, callBackQueue (ensureLoading s) = callBackQueue s).
  { intros s; unfold ensureLoading; destruct (isLoading s); reflexivity. }
  induction c as [label body IH | | url] using Call_nested_ind; intros s.
  - rewrite runCall_GetInstance.
    destruct (runtime s) as [rive|] eqn:E.
    + rewrite (getInstance_ready _ _ rive) by exact E. cbn [apply].
      specialize (Hlist body IH
        (called AtGetInstance (Fn label body) (Some rive) (ensureLoading s))).
      change (callBackQueue (called AtGetInstance (Fn label body) (Some rive)
                               (ensureLoading s)))
        with (callBackQueue (ensureLoading s)) in Hlist.
      rewrite Hens in Hlist.
      change (sizeCall (GetInstance label body))
        with (S (list_sum (map sizeCall body))).
      lia.
    + rewrite getInstance_queued by exact E.
      change (callBackQueue (push (Fn label body) (ensureLoading s)))
        with (callBackQueue (ensureLoading s) ++ [Fn label body]).
      unfold weight. rewrite Hens, map_app, list_sum_app.
      change (sizeCall (GetInstance label body))
        with (S (list_sum (map sizeCall body))).
      simpl. lia.
  - rewrite runCall_AwaitInstance. unfold awaitInstance.
    destruct (runtime s) as [rive|] eqn:E.
    + rewrite (getInstance_ready _ _ rive) by exact E. cbn [apply]. fields.
      rewrite Hens. fields. simpl. lia.
    + rewrite getInstance_queued by exact E. fields.
      unfold weight. rewrite Hens, map_app, list_sum_app. fields. simpl. lia.
  - simpl. lia.
Qed.

Lemma runCalls_weight cs : forall s,
  weight (callBackQueue (runCalls cs s))
  <= weight (callBackQueue s) + list_sum (map sizeCall cs).
Proof.
  induction cs as [|c cs IH]; intros s; simpl; [lia|].
  specialize (IH (runCall c s)). pose proof (runCall_weight c s). lia.
Qed.

Lemma drain_turn fuel callback rest s :
  callBackQueue s = callback :: rest ->
  drain (S fuel) s = drain fuel (turn callback rest s).
Proof. intros H; simpl; rewrite H; reflexivity. Qed.

Lemma drain_empty fuel s : callBackQueue s = [] -> drain fuel s = Some s.
Proof. intros H; destruct fuel; simpl; rewrite H; reflexivity. Qed.

Lemma turn_effect callback rest s :
  callBackQueue s = callback :: rest ->
  runtime (turn callback rest s) = runtime s
  /\ drained (turn callback rest s)
     = drained s ++ [mkInvocation AtDrain callback (runtime s)]
  /\ weight (callBackQueue (turn callback rest s)) < weight (callBackQueue s)
  /\ exists l, callBackQueue (turn callback rest s) = rest ++ l
               /\ enqueued (turn callback rest s) = enqueued s ++ l.
Proof.
  intros Hq. unfold turn. destruct callback as [label body | p]; cbn [apply].
  - match goal with |- context [runCalls body ?s0] =>
      pose proof (apiSteps_appendsOnly _ _ (runCalls_steps body s0)) as (Hr & Hd & l & Hl & He);
      pose proof (runCalls_weight body s0) as Hw
    end.
    rewrite Hr, Hd, Hl, He. rewrite Hl in Hw. unfold drained in *. fields.
    rewrite filter_app. simpl. rewrite Hq.
    split; [reflexivity|]. split; [reflexivity|].
    split; [unfold weight in *; simpl; lia|].
    exists l; auto.
  - unfold drained; fields. rewrite filter_app, Hq. simpl.
    split; [reflexivity|]. split; [reflexivity|].
    split; [unfold weight; simpl; lia|].
    exists []; now rewrite !app_nil_r.
Qed.


(** When it ends the queue is empty, and it has called every callback that
    was in the queue and every callback pushed meanwhile, in the order they
    entered the queue. *)
Lemma drain_effect : forall fuel s s',
  drain fuel s = Some s' ->
  exists appended,
    callBackQueue s' = [] /\ runtime s' = runtime s
    /\ enqueued s' = enqueued s ++ appended
    /\ drained s'
       = drained s ++ map (fun c => mkInvocation AtDrain c (runtime s))
                          (callBackQueue s ++ appended).
Proof.
  induction fuel as [|fuel IH]; intros s s' Hd;
    destruct (callBackQueue s) as [|cb rest] eqn:Hq;
    try (rewrite drain_empty in Hd by exact Hq; injection Hd as <-;
         exists []; simpl; rewrite !app_nil_r; auto).
  - simpl in Hd; rewrite Hq in Hd; discriminate.
  - rewrite (drain_turn fuel cb rest s Hq) in Hd.
    destruct (turn_effect cb rest s Hq) as (Hr & Hdr & _ & l & Hl & He).
    destruct (IH _ _ Hd) as (app' & Hq' & Hr' & He' & Hd').
    exists (l ++ app').
    split; [exact Hq'|]. split; [congruence|].
    split; [rewrite He', He, app_assoc; reflexivity|].
    rewrite Hd', Hdr, Hl, Hr. simpl.
    rewrite <- !app_assoc. simpl. reflexivity.
Qed.

(** ** The loop with the runtime stored *)

Lemma turn_keepsLoad callback rest s : keepsLoad s (turn callback rest s).
Proof.
  unfold turn; destruct callback as [label body | p]; cbn [apply].
  - match goal with |- context [runCalls body ?s0] =>
      pose proof (apiSteps_keepsLoad _ _ (runCalls_steps body s0)) as (Hr & Hc & Hle & Hk)
    end.
    unfold keepsLoad. rewrite Hr, Hc. fields.
    split; [reflexivity|]. split; [reflexivity|]. split; [exact Hle|].
    exact Hk.
  - unfold keepsLoad; fields; intuition lia.
Qed.

Lemma turn_ready callback rest s rive :
  runtime s = Some rive ->
  callBackQueue s = callback :: rest ->
  callBackQueue (turn callback rest s) = rest
  /\ enqueued (turn callback rest s) = enqueued s
  /\ exists l, invoked (turn callback rest s)
               = invoked s ++ mkInvocation AtDrain callback (Some rive) :: l
               /\ Forall (fun i => site i = AtGetInstance /\ arg i = Some rive) l.
Proof.
  intros Hrt Hq. unfold turn; destruct callback as [label body | p]; cbn [apply].
  - match goal with |- context [runCalls body ?s0] =>
      destruct (apiSteps_keepsQueue _ _ (runCalls_steps body s0) rive)
        as (_ & Hcq & He & l & Hl & Hf); [fields; exact Hrt|]
    end.
    rewrite Hcq, He, Hl. fields. rewrite Hrt.
    split; [reflexivity|]. split; [reflexivity|].
    exists l. rewrite <- app_assoc. auto.
  - fields. rewrite Hrt.
    split; [reflexivity|]. split; [reflexivity|].
    exists []. auto.
Qed.

Lemma turn_Inv callback rest s rive :
  runtime s = Some rive ->
  callBackQueue s = callback :: rest ->
  Inv s -> Inv (turn callback rest s).
Proof.
  intros Hrt Hq [H1 H2 H3 H4 H5].
  unfold turn; destruct callback as [label body | p]; cbn [apply].
  - eapply apiSteps_Inv; [apply runCalls_steps|].
    constructor; try (intros q; apply promiseOK_shift_fn; auto); fields; auto.
    apply Forall_app; split; [exact H4|].
    constructor; [simpl; split; congruence | constructor].
  - constructor;
      try (intros q; exact (promiseOK_shift_resolver rive p rest s q Hrt Hq H5));
      fields; auto.
    apply Forall_app; split; [exact H4|].
    constructor; [simpl; split; congruence | constructor].
Qed.


Lemma drain_ready_effect rive : forall fuel s s',
  runtime s = Some rive ->
  drain fuel s = Some s' ->
  callBackQueue s' = [] /\ runtime s' = Some rive
  /\ enqueued s' = enqueued s
  /\ keepsLoad s s'
  /\ (Inv s -> Inv s')
  /\ exists l, invoked s' = invoked s ++ l
               /\ Forall (fun i => arg i = Some rive) l
               /\ filter atDrain l
                  = map (fun c => mkInvocation AtDrain c (Some rive))
                        (callBackQueue s).
Proof.
  induction fuel as [|fuel IH]; intros s s' Hrt Hd;
    destruct (callBackQueue s) as [|cb rest] eqn:Hq;
    try (rewrite drain_empty in Hd by exact Hq; injection Hd as <-;
         split; [exact Hq|]; split; [exact Hrt|]; split; [reflexivity|];
         split; [unfold keepsLoad; intuition lia|]; split; [auto|];
         exists []; rewrite app_nil_r; simpl; auto).
  - simpl in Hd; rewrite Hq in Hd; discriminate.
  - rewrite (drain_turn fuel cb rest s Hq) in Hd.
    destruct (turn_ready cb rest s rive Hrt Hq) as (Hcq & He & l & Hl & Hf).
    destruct (turn_effect cb rest s Hq) as (Hr & _).
    pose proof (turn_keepsLoad cb rest s) as (Kr & Kc & Kle & Kk).
    destruct (IH _ _ (eq_trans Hr Hrt) Hd)
      as (Hq' & Hr' & He' & (Kr' & Kc' & Kle' & Kk') & HI & l' & Hl' & Hf' & Hfl').
    split; [exact Hq'|]. split; [exact Hr'|]. split; [congruence|].
    split; [|split].
    + unfold keepsLoad.
      split; [congruence|]. split; [congruence|]. split; [lia|].
      intros Hload. destruct (Kk Hload) as (A & B & C).
      destruct (Kk' A) as (A' & B' & C'). repeat split; congruence.
    + intros HInv. apply HI. eapply turn_Inv; eauto.
    + exists (mkInvocation AtDrain cb (Some rive) :: l ++ l').
      split; [rewrite Hl', Hl, <- app_assoc; reflexivity|].
      split.
      * constructor; [reflexivity|]. apply Forall_app; split; [|exact Hf'].
        eapply Forall_impl; [|exact Hf]. intros i [_ Hi]; exact Hi.
      * simpl. rewrite filter_app, Hfl', Hcq. f_equal.
        replace (filter atDrain l) with (@nil Invocation); [reflexivity|].
        symmetry. clear -Hf. induction Hf as [|i l [Hs _] _ IHl]; simpl; auto.
        unfold atDrain at 1; rewrite Hs; exact IHl.
Qed.

(** ** [getInstance] with any callback *)

Lemma getInstance_keepsLoad cb s : keepsLoad s (getInstance cb s).
Proof.
  destruct cb as [label body | p].
  - rewrite <- runCall_GetInstance. apply apiSteps_keepsLoad, runCall_steps.
  - pose proof (apiSteps_keepsLoad _ _ (ensureLoading_steps s)) as (Hr & Hc & Hle & Hk).
    unfold keepsLoad.
    destruct (runtime s) as [rive|] eqn:E.
    + rewrite (getInstance_ready _ _ rive) by exact E. cbn [apply]. fields.
      auto.
    + rewrite getInstance_queued by exact E. fields.
      auto.
Qed.

Lemma Inv_waiting_invoked s : Inv s -> runtime s = None -> invoked s = [].
Proof.
  intros [_ _ _ H4 _] Hr. destruct (invoked s) as [|i l]; [reflexivity|].
  inversion H4 as [|? ? [Ha Hn] _]. congruence.
Qed.

Lemma Inv_waiting_pending s :
  Inv s -> runtime s = None -> Forall (fun q => q = Pending) (promises s).
Proof.
  intros [_ _ _ _ H5] Hr. apply Forall_forall. intros q Hin.
  destruct (In_nth_error _ _ Hin) as [p Hp].
  specialize (H5 p). unfold promiseOK in H5. rewrite Hp in H5.
  destruct q as [|v|]; [reflexivity | | contradiction].
  destruct H5 as (_ & _ & Hv & Hn). congruence.
Qed.

Lemma Inv_in_flight s n :
  Inv s -> inFlight s = S n -> n = 0 /\ runtime s = None /\ isLoading s = true.
Proof.
  intros [H1 H2 H3 _ _] Hf. split; [lia|]. split.
  - destruct (runtime s) eqn:E; [|reflexivity].
    assert (inFlight s = 0) by (apply H3; congruence). lia.
  - destruct (isLoading s) eqn:E; [reflexivity|].
    destruct (H2 eq_refl). lia.
Qed.

(** The [then] handler stores the runtime first. *)
Lemma Inv_store rive s :
  Inv s -> inFlight s = 1 -> Inv (set_runtime (Some rive) (set_inFlight 0 s)).
Proof.
  intros HI Hf.
  destruct (Inv_in_flight s 0 HI Hf) as (_ & Hr & Hl).
  pose proof (Inv_waiting_invoked s HI Hr) as Hi.
  pose proof (Inv_waiting_pending s HI Hr) as Hp.
  destruct HI as [H1 H2 H3 H4 H5].
  constructor; fields; auto; try congruence.
  - rewrite Hi; constructor.
  - intros p. specialize (H5 p). unfold promiseOK, queuedResolvers, resolutions in *.
    fields. destruct (nth_error (promises s) p) as [q|] eqn:E; [|exact H5].
    rewrite Forall_forall in Hp. rewrite (Hp q (nth_error_In _ _ E)) in *.
    exact H5.
Qed.

Section Reachability.

Variable packageData : PackageData.

Lemma initial_Inv : Inv (initial packageData).
Proof.
  constructor; simpl; auto; try congruence.
  intros p. unfold promiseOK, queuedResolvers, resolutions; simpl.
  destruct p; simpl; auto.
Qed.

Lemma loadRuntime_catch_Inv s :
  Inv s -> inFlight s = 1 -> Inv (loadRuntime_catch packageData (set_inFlight 0 s)).
Proof.
  intros HI Hf.
  destruct (Inv_in_flight s 0 HI Hf) as (_ & Hr & Hl).
  destruct HI as [H1 H2 H3 H4 H5].
  unfold loadRuntime_catch. destruct (tryBackup packageData _);
    constructor; fields; auto; try congruence;
    intros p; apply (promiseOK_ext s); auto.
Qed.

Lemma exec_Inv fuel e s s' :
  Inv s -> exec packageData fuel e s = Some s' -> Inv s'.
Proof.
  intros HI He. destruct e as [c | rive | ]; simpl in He.
  - injection He as <-. eapply apiSteps_Inv; [apply runCall_steps | exact HI].
  - destruct (inFlight s) as [|n] eqn:Hf; [discriminate|].
    destruct (Inv_in_flight s n HI Hf) as (-> & _).
    unfold loadRuntime_then in He.
    eapply (drain_ready_effect rive); [| exact He | apply Inv_store; auto].
    reflexivity.
  - destruct (inFlight s) as [|n] eqn:Hf; [discriminate|].
    destruct (Inv_in_flight s n HI Hf) as (-> & _).
    injection He as <-. apply loadRuntime_catch_Inv; auto.
Qed.

Lemma execAll_Inv fuel es : forall s s',
  Inv s -> execAll packageData fuel es s = Some s' -> Inv s'.
Proof.
  induction es as [|e es IH]; intros s s' HI He; simpl in He.
  - injection He as <-; exact HI.
  - destruct (exec packageData fuel e s) as [s1|] eqn:E; [|discriminate].
    eapply IH; [eapply exec_Inv; eauto | exact He].
Qed.

Lemma reachable_Inv s : reachable packageData s -> Inv s.
Proof.
  intros (fuel & es & He). eapply execAll_Inv; [apply initial_Inv | exact He].
Qed.

(** Once the loader has given up, only calls of the interface can happen,
    and they only queue. *)
Lemma failedTerminally_stays fuel es : forall s s',
  failedTerminally s ->
  execAll packageData fuel es s = Some s' ->
  failedTerminally s'
  /\ invoked s' = invoked s /\ initCalls s' = initCalls s
  /\ console s' = console s
  /\ (exists l, callBackQueue s' = callBackQueue s ++ l
                /\ enqueued s' = enqueued s ++ l)
  /\ exists k, promises s' = promises s ++ repeat Pending k.
Proof.
  induction es as [|e es IH]; intros s s' (Hl & Hr & Hf) He; simpl in He.
  - injection He as <-. unfold failedTerminally. repeat split; auto.
    + exists []; now rewrite !app_nil_r.
    + exists 0; simpl; now rewrite app_nil_r.
  - destruct e as [c | rive | ]; simpl in He; try (rewrite Hf in He; discriminate).
    pose proof (apiSteps_keepsLoad _ _ (runCall_steps c s)) as (Kr & Kc & _ & Kk).
    destruct (Kk Hl) as (Kl & Kf & Ki).
    destruct (apiSteps_onlyQueues _ _ (runCall_steps c s) Hr)
      as (Qr & Qi & (l & Ql & Qe) & k & Qp).
    destruct (IH _ _ (conj Kl (conj Qr (eq_trans Kf Hf))) He)
      as (HF & Hi & Hic & Hc & (l' & Hl' & He') & k' & Hp').
    split; [exact HF|]. split; [congruence|]. split; [congruence|].
    split; [congruence|]. split.
    + exists (l ++ l'). rewrite Hl', Ql, He', Qe, !app_assoc; auto.
    + exists (k + k'). rewrite Hp', Qp, repeat_app, app_assoc; reflexivity.
Qed.

End Reachability.

(** ** Registering callbacks *)

Lemma keepsLoad_refl s : keepsLoad s s.
Proof. unfold keepsLoad; intuition lia. Qed.

Lemma keepsLoad_trans s1 s2 s3 : keepsLoad s1 s2 -> keepsLoad s2 s3 -> keepsLoad s1 s3.
Proof.
  intros (Hr & Hc & Hle & H12) (Hr' & Hc' & Hle' & H23).
  split; [congruence|]. split; [congruence|]. split; [lia|].
  intros H0; destruct (H12 H0) as (Hl & Hf & Hi).
  destruct (H23 Hl) as (Hl' & Hf' & Hi').
  split; [|split]; congruence.
Qed.

Lemma ensureLoading_fields s :
  callBackQueue (ensureLoading s) = callBackQueue s
  /\ enqueued (ensureLoading s) = enqueued s
  /\ invoked (ensureLoading s) = invoked s
  /\ wasmURL (ensureLoading s) = wasmURL s.
Proof. unfold ensureLoading; destruct (isLoading s); simpl; auto. Qed.

Lemma registerAll_keepsLoad cbs : forall s, keepsLoad s (registerAll cbs s).
Proof.
  induction cbs as [|cb cbs IH]; intros s; simpl.
  - apply keepsLoad_refl.
  - eapply keepsLoad_trans; [apply getInstance_keepsLoad | apply IH].
Qed.

(** Before the runtime is stored every request is queued, at the end. *)
Lemma registerAll_queued cbs : forall s,
  runtime s = None ->
  runtime (registerAll cbs s) = None
  /\ callBackQueue (registerAll cbs s) = callBackQueue s ++ cbs
  /\ enqueued (registerAll cbs s) = enqueued s ++ cbs
  /\ invoked (registerAll cbs s) = invoked s.
Proof.
  induction cbs as [|cb cbs IH]; intros s Hr; simpl.
  - rewrite !app_nil_r; auto.
  - destruct (ensureLoading_fields s) as (Hq & He & Hi & _).
    destruct (IH (getInstance cb s)) as (Hr' & Hq' & He' & Hi').
    + rewrite getInstance_queued by exact Hr. fields.
      now rewrite ensureLoading_runtime.
    + rewrite getInstance_queued in * by exact Hr. fields.
      rewrite Hr', Hq', He', Hi', Hq, He, Hi, <- !app_assoc. auto.
Qed.


Lemma getInstance_isLoading cb s : isLoading (getInstance cb s) = true.
Proof.
  unfold getInstance, getInstanceWith.
  pose proof (ensureLoading_isLoading s) as Hl.
  destruct (runtime (ensureLoading s)) as [rive|].
  - destruct cb as [label body | p]; cbn [apply].
    + match goal with |- context [runCalls body ?s0] =>
        destruct (apiSteps_keepsLoad _ _ (runCalls_steps body s0))
          as (_ & _ & _ & Hk)
      end.
      apply Hk. exact Hl.
    + exact Hl.
  - exact Hl.
Qed.

Section Claims.

Variable packageData : PackageData.

(** From the start: the first request starts the load, the others wait. *)
Lemma registerAll_initial cb cbs :
  let s := registerAll (cb :: cbs) (initial packageData) in
  initCalls s = [unpkgUrl packageData] /\ inFlight s = 1
  /\ runtime s = None /\ callBackQueue s = cb :: cbs /\ invoked s = [].
Proof.
  intros s. subst s. simpl.
  set (s1 := getInstance cb (initial packageData)).
  assert (H1 : isLoading s1 = true /\ runtime s1 = None
               /\ initCalls s1 = [unpkgUrl packageData] /\ inFlight s1 = 1
               /\ callBackQueue s1 = [cb] /\ invoked s1 = []).
  { subst s1. rewrite getInstance_queued by reflexivity. simpl.
    repeat split; reflexivity. }
  destruct H1 as (Hl & Hr & Hi & Hf & Hq & Hv).
  destruct (registerAll_keepsLoad cbs s1) as (_ & _ & _ & Hk).
  destruct (Hk Hl) as (_ & Hf' & Hi').
  destruct (registerAll_queued cbs s1 Hr) as (Hr' & Hq' & _ & Hv').
  rewrite Hi', Hf', Hr', Hq', Hv', Hi, Hf, Hq, Hv. repeat split; reflexivity.
Qed.

(** C1 (single flight).  However many requests are made from the start before
    any load completes, the module factory has been called once, with the
    unpkg URL, and one load is in flight; a request made while the flag is set
    starts no load; and at no time are two loads in flight. *)
Theorem single_flight :
  (forall cb cbs,
     let s := registerAll (cb :: cbs) (initial packageData) in
     initCalls s = [unpkgUrl packageData] /\ inFlight s = 1
     /\ runtime s = None /\ callBackQueue s = cb :: cbs)
  /\ (forall cb s,
        isLoading s = true ->
        isLoading (getInstance cb s) = true
        /\ initCalls (getInstance cb s) = initCalls s
        /\ inFlight (getInstance cb s) = inFlight s)
  /\ (forall s, reachable packageData s -> inFlight s <= 1).
Proof.
  split; [|split].
  - intros cb cbs s.
    destruct (registerAll_initial cb cbs) as (A & B & C & D & _). auto.
  - intros cb s Hl.
    destruct (getInstance_keepsLoad cb s) as (_ & _ & _ & Hk).
    destruct (Hk Hl) as (A & B & C). auto.
  - intros s Hs. apply reachable_Inv in Hs. apply Hs.
Qed.



(** C9 (URL override).  When [setWasmUrl(url)] is called before any load was
    started, the request that follows starts the load with [locateFile]
    returning [url]. *)
Theorem url_override url cb s :
  isLoading s = false ->
  runtime s = None ->
  let s' := getInstance cb (setWasmUrl url s) in
  initCalls s' = initCalls s ++ [url]
  /\ inFlight s' = S (inFlight s)
  /\ locateFile s' = url.
Proof.
  intros Hl Hr s'. subst s'.
  rewrite getInstance_queued by exact Hr.
  rewrite ensureLoading_idle by exact Hl.
  fields. auto.
Qed.


Lemma exec_isLoading fuel e s s' :
  exec packageData fuel e s = Some s' -> isLoading s = true -> isLoading s' = true.
Proof.
  intros He Hl. destruct e as [c | rive | ]; simpl in He.
  - injection He as <-.
    destruct (apiSteps_keepsLoad _ _ (runCall_steps c s)) as (_ & _ & _ & Hk).
    apply Hk, Hl.
  - destruct (inFlight s) as [|n]; [discriminate|].
    unfold loadRuntime_then in He.
    destruct (drain_ready_effect rive fuel
                (set_runtime (Some rive) (set_inFlight n s)) s' eq_refl He)
      as (_ & _ & _ & (_ & _ & _ & Hk) & _).
    apply Hk. exact Hl.
  - destruct (inFlight s) as [|n]; [discriminate|].
    injection He as <-. unfold loadRuntime_catch.
    destruct (tryBackup packageData _); exact Hl.
Qed.

(** C6 (no retry after failure).  A request sets the flag; no event and no
    handler, the failure path included, clears it.  When the failure path
    gives up the loader is left with the flag set, no runtime and no load in
    flight; from then on no callback is ever called, the module factory is
    never called again, and each request only adds its callback to the
    queue. *)
Theorem no_retry_after_failure :
  (forall cb s, isLoading (getInstance cb s) = true)
  /\ (forall fuel e s s',
        exec packageData fuel e s = Some s' ->
        isLoading s = true -> isLoading s' = true)
  /\ (forall s, isLoading (loadRuntime_catch packageData s) = isLoading s)
  /\ (forall fuel s s',
        reachable packageData s ->
        tryBackup packageData s = false ->
        exec packageData fuel InitRejected s = Some s' ->
        failedTerminally s' /\ invoked s' = [] /\ initCalls s' = initCalls s)
  /\ (forall fuel es s s',
        failedTerminally s ->
        execAll packageData fuel es s = Some s' ->
        failedTerminally s'
        /\ invoked s' = invoked s /\ initCalls s' = initCalls s
        /\ exists l, callBackQueue s' = callBackQueue s ++ l)
  /\ (forall cb s,
        failedTerminally s ->
        callBackQueue (getInstance cb s) = callBackQueue s ++ [cb]
        /\ invoked (getInstance cb s) = invoked s
        /\ initCalls (getInstance cb s) = initCalls s
        /\ inFlight (getInstance cb s) = 0).
Proof.
  split; [|split; [|split; [|split; [|split]]]].
  - apply getInstance_isLoading.
  - intros fuel e s s'. apply exec_isLoading.
  - intros s. unfold loadRuntime_catch.
    destruct (tryBackup packageData s); reflexivity.
  - intros fuel s s' Hs Ht He. apply reachable_Inv in Hs.
    simpl in He. destruct (inFlight s) as [|n] eqn:Hf; [discriminate|].
    destruct (Inv_in_flight s n Hs Hf) as (-> & Hr & Hl).
    pose proof (Inv_waiting_invoked s Hs Hr) as Hi.
    injection He as <-. unfold loadRuntime_catch.
    replace (tryBackup packageData (set_inFlight 0 s)) with false.
    unfold failedTerminally. fields. auto.
  - intros fuel es s s' Hs He.
    destruct (failedTerminally_stays packageData fuel es s s' Hs He)
      as (A & B & C & _ & (l & D & _) & _).
    split; [exact A|]. split; [exact B|]. split; [exact C|]. exists l; exact D.
  - intros cb s (Hl & Hr & Hf).
    destruct (getInstance_keepsLoad cb s) as (_ & _ & _ & Hk).
    destruct (Hk Hl) as (_ & Kf & Ki).
    rewrite Ki, Kf, Hf.
    rewrite getInstance_queued by exact Hr.
    rewrite (ensureLoading_loading s Hl). fields. auto.
Qed.

(** C8 ([awaitInstance]).  The promise is never rejected.  It is pending as
    long as its callback waits in the queue, uncalled, and it is fulfilled
    with [v] exactly when that callback has been called, once, with [v], the
    stored runtime.  [awaitInstance] makes the promise and registers that
    callback through [getInstance].  Once the loader has given up, every
    promise, old or new, stays pending. *)
Theorem awaitInstance_promise :
  (forall s, reachable packageData s -> forall p, promiseOK s p)
  /\ (forall s,
        nth_error (promises (awaitInstance s)) (List.length (promises s))
        = Some (match runtime s with
                | Some rive => Fulfilled (Some rive)
                | None => Pending
                end)
        /\ awaitInstance s
           = getInstance (PromiseResolve (List.length (promises s)))
                         (set_promises (promises s ++ [Pending]) s))
  /\ (forall fuel es s s',
        reachable packageData s ->
        failedTerminally s ->
        execAll packageData fuel es s = Some s' ->
        Forall (fun q => q = Pending) (promises s')).
Proof.
  split; [|split].
  - intros s Hs. apply reachable_Inv in Hs. apply Hs.
  - intros s. split; [|reflexivity].
    unfold awaitInstance.
    destruct (runtime s) as [rive|] eqn:E.
    + rewrite (getInstance_ready _ _ rive) by exact E. cbn [apply].
      rewrite ensureLoading_set_promises. fields.
      rewrite resolveAt_fresh.
      rewrite nth_error_app2, Nat.sub_diag by lia. reflexivity.
    + rewrite getInstance_queued by exact E.
      rewrite ensureLoading_set_promises. fields.
      rewrite nth_error_app2, Nat.sub_diag by lia. reflexivity.
  - intros fuel es s s' Hs Hf He. apply reachable_Inv in Hs.
    pose proof (execAll_Inv packageData fuel es s s' Hs He) as HI.
    destruct (failedTerminally_stays packageData fuel es s s' Hf He)
      as ((_ & Hr & _) & _).
    apply Inv_waiting_pending; assumption.
Qed.

(** C7 ([setWasmUrl]), as the code has it.  The call overwrites the field
    [wasmURL], whatever the string, and nothing else: the runtime is not
    cleared and no load is started.  A load in flight reads the field when it
    needs it: from the call on [locateFile] returns the new URL, and it is
    the new URL that the failure path compares with the fallback. *)
Theorem setWasmUrl_frame url s :
  wasmURL (setWasmUrl url s) = url
  /\ runtime (setWasmUrl url s) = runtime s
  /\ isLoading (setWasmUrl url s) = isLoading s
  /\ callBackQueue (setWasmUrl url s) = callBackQueue s
  /\ inFlight (setWasmUrl url s) = inFlight s
  /\ initCalls (setWasmUrl url s) = initCalls s
  /\ promises (setWasmUrl url s) = promises s
  /\ invoked (setWasmUrl url s) = invoked s
  /\ console (setWasmUrl url s) = console s
  /\ locateFile (setWasmUrl url s) = url
  /\ tryBackup packageData (setWasmUrl url s)
     = negb (String.eqb (toLowerCase url) (backupJsdelivrUrl packageData)).
Proof. repeat split. Qed.




End Claims.

(** ** Upper-case letters in the fallback URL *)

Lemma lowerAscii_not_upper c : isUpper (lowerAscii c) = false.
Proof. destruct c as [[] [] [] [] [] [] [] []]; vm_compute; reflexivity. Qed.

Lemma toLowerCase_hasUpper s : hasUpper (toLowerCase s) = false.
Proof.
  induction s as [|c s IH]; simpl; [reflexivity|].
  now rewrite lowerAscii_not_upper, IH.
Qed.

Lemma toLowerCase_fixed s : hasUpper s = false -> toLowerCase s = s.
Proof.
  induction s as [|c s IH]; simpl; [reflexivity|].
  intros H. apply orb_false_iff in H. destruct H as [Hc Hs].
  unfold lowerAscii. rewrite Hc, (IH Hs). reflexivity.
Qed.

(** The lowercased current URL cannot equal a fallback URL that has an
    upper-case letter: the test of line 86 then always asks for a retry. *)
Lemma tryBackup_upper pkg s :
  hasUpper (backupJsdelivrUrl pkg) = true -> tryBackup pkg s = true.
Proof.
  intros Hup. unfold tryBackup. apply negb_true_iff, String.eqb_neq.
  intros Heq. rewrite <- Heq, toLowerCase_hasUpper in Hup. discriminate.
Qed.

(** X9 (retries without end).  With such a fallback URL every failure
    starts another load: after [n] failures in a row one load is in flight,
    [n] more calls of the module factory have been made, and no error has
    been reported. *)
Lemma retry_without_end pkg fuel :
  hasUpper (backupJsdelivrUrl pkg) = true ->
  forall n s,
    inFlight s = 1 ->
    exists s',
      execAll pkg fuel (repeat InitRejected n) s = Some s'
      /\ inFlight s' = 1
      /\ List.length (initCalls s') = List.length (initCalls s) + n
      /\ filter isError (console s') = filter isError (console s).
Proof.
  intros Hup. induction n as [|n IH]; intros s Hf.
  - exists s. simpl. repeat split; auto.
  - simpl. rewrite Hf. unfold loadRuntime_catch.
    rewrite (tryBackup_upper pkg _ Hup).
    match goal with |- context [execAll pkg fuel _ ?s1] =>
      destruct (IH s1 eq_refl) as (s' & He & Hf' & Hl & Hc)
    end.
    exists s'. split; [exact He|]. split; [exact Hf'|].
    rewrite Hl, Hc. unfold loadRuntime, setWasmUrl, log, set_inFlight.
    cbn [initCalls console]. rewrite length_app, filter_app. simpl.
    rewrite app_nil_r. split; [lia | reflexivity].
Qed.

(** ** The scenarios of the specification, run *)

Example toLowerCase_url :
  toLowerCase "HTTPS://cdn.JsDelivr.net/npm/@Rive-App/Canvas@2.7.0-RC1/x_[Z].wasm"
  = "https://cdn.jsdelivr.net/npm/@rive-app/canvas@2.7.0-rc1/x_[z].wasm".
Proof. vm_compute; reflexivity. Qed.

(** Register A, the load from unpkg fails, the load from jsdelivr succeeds
    with runtime [5]: A is called once with [5] and one warning is logged. *)
Example scenario_fallback_success :
  exists s,
    execAll canvasPackage 1 [Called (GetInstance 1 []); InitRejected; InitResolved 5]
            (initial canvasPackage) = Some s
    /\ invoked s = [mkInvocation AtDrain cbA (Some 5)]
    /\ initCalls s = [unpkgUrl canvasPackage; backupJsdelivrUrl canvasPackage]
    /\ console s
       = [Warn "Failed to load WASM from https://unpkg.com/@rive-app/canvas@2.7.0/rive.wasm, trying jsdelivr as a backup"].
Proof. eexists. split; [vm_compute; reflexivity|]. repeat split. Qed.

(** Register A, B, C, the load succeeds with runtime [5]: the loop calls A,
    B, C in that order; B's own request and promise are served from
    [getInstance]. *)
Example scenario_fifo :
  exists s,
    execAll canvasPackage 3 [InitResolved 5]
            (registerAll [cbA; cbB; cbC] (initial canvasPackage)) = Some s
    /\ drained s = [mkInvocation AtDrain cbA (Some 5);
                    mkInvocation AtDrain cbB (Some 5);
                    mkInvocation AtDrain cbC (Some 5)]
    /\ invoked s = [mkInvocation AtDrain cbA (Some 5);
                    mkInvocation AtDrain cbB (Some 5);
                    mkInvocation AtGetInstance (Fn 20 []) (Some 5);
                    mkInvocation AtGetInstance (PromiseResolve 0) (Some 5);
                    mkInvocation AtDrain cbC (Some 5)]
    /\ promises s = [Fulfilled (Some 5)]
    /\ callBackQueue s = [].
Proof. eexists. split; [vm_compute; reflexivity|]. repeat split. Qed.

(** The loop run with no runtime stored: B's request and promise are pushed
    while the loop runs, and the loop calls them too before it ends. *)
Example scenario_push_during_drain :
  exists s,
    drain 5 (registerAll [cbA; cbB] (initial canvasPackage)) = Some s
    /\ map callee (drained s) = [cbA; cbB; Fn 20 []; PromiseResolve 0]
    /\ callBackQueue s = [].
Proof. eexists. split; [vm_compute; reflexivity|]. repeat split. Qed.

(** ** Instances *)

Lemma loadingState_isLoading : isLoading (loadingState canvasPackage) = true.
Proof. vm_compute; reflexivity. Defined.



Lemma failedState_failedTerminally : failedTerminally (failedState canvasPackage).
Proof. repeat split; vm_compute; reflexivity. Defined.

Lemma failedState_reachable : reachable canvasPackage (failedState canvasPackage).
Proof.
  exists 0, [Called (GetInstance 1 []); InitRejected; InitRejected].
  vm_compute; reflexivity.
Defined.

Lemma single_flight_witness :
  isLoading (loadingState canvasPackage) = true
  /\ inFlight (getInstance cbB (loadingState canvasPackage))
     = inFlight (loadingState canvasPackage).
Proof.
  split; [exact loadingState_isLoading|].
  destruct (single_flight canvasPackage) as (_ & H & _).
  destruct (H cbB (loadingState canvasPackage) loadingState_isLoading)
    as (_ & _ & Hf).
  exact Hf.
Defined.



Lemma initial_idle :
  isLoading (initial canvasPackage) = false /\ runtime (initial canvasPackage) = None.
Proof. split; reflexivity. Defined.

Lemma url_override_witness :
  isLoading (initial canvasPackage) = false
  /\ runtime (initial canvasPackage) = None
  /\ locateFile (getInstance cbA (setWasmUrl "https://example.com/custom.wasm"
                                             (initial canvasPackage)))
     = "https://example.com/custom.wasm".
Proof.
  split; [exact (proj1 initial_idle)|]. split; [exact (proj2 initial_idle)|].
  exact (proj2 (proj2 (url_override "https://example.com/custom.wasm" cbA
                         (initial canvasPackage)
                         (proj1 initial_idle) (proj2 initial_idle)))).
Defined.


Lemma no_retry_after_failure_witness :
  failedTerminally (failedState canvasPackage)
  /\ callBackQueue (getInstance cbC (failedState canvasPackage))
     = callBackQueue (failedState canvasPackage) ++ [cbC]
  /\ initCalls (getInstance cbC (failedState canvasPackage))
     = initCalls (failedState canvasPackage).
Proof.
  split; [exact failedState_failedTerminally|].
  destruct (no_retry_after_failure canvasPackage) as (_ & _ & _ & _ & _ & H).
  destruct (H cbC (failedState canvasPackage) failedState_failedTerminally)
    as (Hq & _ & Hi & _).
  split; [exact Hq | exact Hi].
Defined.

Lemma awaitInstance_promise_witness :
  reachable canvasPackage (failedState canvasPackage)
  /\ failedTerminally (failedState canvasPackage)
  /\ execAll canvasPackage 0 [Called AwaitInstance; Called (GetInstance 9 [])]
             (failedState canvasPackage)
     = Some (getInstance (Fn 9 []) (awaitInstance (failedState canvasPackage)))
  /\ Forall (fun q => q = Pending)
            (promises (getInstance (Fn 9 []) (awaitInstance (failedState canvasPackage)))).
Proof.
  assert (He : execAll canvasPackage 0
                 [Called AwaitInstance; Called (GetInstance 9 [])]
                 (failedState canvasPackage)
               = Some (getInstance (Fn 9 [])
                         (awaitInstance (failedState canvasPackage))))
    by (vm_compute; reflexivity).
  split; [exact failedState_reachable|].
  split; [exact failedState_failedTerminally|].
  split; [exact He|].
  destruct (awaitInstance_promise canvasPackage) as (_ & _ & H).
  exact (H 0 [Called AwaitInstance; Called (GetInstance 9 [])]
           (failedState canvasPackage) _
           failedState_reachable failedState_failedTerminally He).
Defined.




(** ** Counterexamples *)



(** C7 as written.  A load is in flight; [setWasmUrl] changes what
    [locateFile] returns for it, and changes what its failure does: without
    the call the failure starts the retry, with the call (here to the
    fallback URL) it gives up. *)
Lemma setWasmUrl_in_flight_counterexample :
  inFlight (loadingState canvasPackage) = 1
  /\ locateFile (setWasmUrl (backupJsdelivrUrl canvasPackage)
                            (loadingState canvasPackage))
     <> locateFile (loadingState canvasPackage)
  /\ exists t t',
       exec canvasPackage 0 InitRejected (loadingState canvasPackage) = Some t
       /\ exec canvasPackage 0 InitRejected
               (setWasmUrl (backupJsdelivrUrl canvasPackage)
                           (loadingState canvasPackage)) = Some t'
       /\ inFlight t = 1 /\ List.length (initCalls t) = 2
       /\ inFlight t' = 0 /\ List.length (initCalls t') = 1
       /\ console t' = [Error errorMessage].
Proof.
  split; [vm_compute; reflexivity|].
  split; [vm_compute; intros H; discriminate H|].
  eexists. eexists.
  split; [vm_compute; reflexivity|]. split; [vm_compute; reflexivity|].
  repeat split.
Qed.

(** * The loader between events *)

Lemma map_callee_drain v q :
  map callee (map (fun c => mkInvocation AtDrain c v) q) = q.
Proof. induction q as [|c q IH]; simpl; [reflexivity | now rewrite IH]. Qed.

(** What the [then] handler does, as a whole. *)
Lemma then_effect fuel rive s s' :
  loadRuntime_then fuel rive s = Some s' ->
  runtime s' = Some rive /\ callBackQueue s' = []
  /\ enqueued s' = enqueued s /\ console s' = console s
  /\ inFlight s <= inFlight s'
  /\ (isLoading s = true ->
      isLoading s' = true /\ inFlight s' = inFlight s
      /\ initCalls s' = initCalls s)
  /\ drained s'
     = drained s ++ map (fun c => mkInvocation AtDrain c (Some rive))
                        (callBackQueue s).
Proof.
  unfold loadRuntime_then. intros Hd.
  destruct (drain_ready_effect rive fuel (set_runtime (Some rive) s) s'
              eq_refl Hd) as (Hq & Hr & He & (_ & Kc & Kle & Kk) & _).
  destruct (drain_effect _ _ _ Hd) as (app & _ & _ & He' & Hdr).
  rewrite He in He'.
  assert (app = []) as ->.
  { apply (app_inv_head (enqueued (set_runtime (Some rive) s))).
    rewrite app_nil_r. symmetry. exact He'. }
  rewrite app_nil_r in Hdr.
  repeat (split; [assumption|]). exact Hdr.
Qed.


Section Bookkeeping.

Variable packageData : PackageData.

Lemma initial_Ledger : Ledger packageData (initial packageData).
Proof. constructor; simpl; auto; try (intros H; congruence). Qed.

Lemma apiStep_Ledger s s' :
  apiStep s s' -> Inv s -> Ledger packageData s -> Ledger packageData s'.
Proof.
  intros Hs HI [L1 L0 L2 L3 L4 L5 L6 L7]; destruct Hs.
  - constructor; auto; exact L0.
  - destruct (L1 H) as [Hi Hc]. destruct (inv_idle s HI H) as [Hf Hr].
    constructor; unfold drained in *; fields; auto;
      try solve [intros; congruence];
      try solve [rewrite Hi, ?Hf, ?Hc; simpl; auto];
      try solve [left; rewrite Hc; reflexivity];
      try solve [intros _ Hn; rewrite Hi in Hn; discriminate].
  - constructor; unfold drained in *; fields; auto; try exact L0;
      try solve [intros; congruence];
      try solve [rewrite L3, app_assoc; reflexivity].
  - constructor; unfold drained in *; fields; auto; try exact L0;
      try solve [rewrite filter_app; simpl; rewrite app_nil_r; exact L3].
  - constructor; unfold drained in *; fields; auto; try exact L0;
      try solve [intros; congruence];
      try solve [rewrite L3, app_assoc; reflexivity].
  - constructor; unfold drained in *; fields; auto; try exact L0;
      try solve [rewrite filter_app; simpl; rewrite app_nil_r; exact L3].
Qed.

Lemma apiSteps_Ledger s s' :
  apiSteps s s' -> Inv s -> Ledger packageData s -> Ledger packageData s'.
Proof.
  induction 1 as [|s1 s2 s3 Hs _ IH]; intros HI HL; [exact HL|].
  apply IH; [eapply apiStep_Inv | eapply apiStep_Ledger]; eauto.
Qed.

Lemma then_Ledger fuel rive s s' :
  Inv s -> Ledger packageData s -> inFlight s = 1 ->
  loadRuntime_then fuel rive (set_inFlight 0 s) = Some s' ->
  Ledger packageData s'.
Proof.
  intros HI [L1 L0 L2 L3 L4 L5 L6 L7] Hf Hd.
  destruct (Inv_in_flight s 0 HI Hf) as (_ & Hr & Hl).
  destruct (then_effect _ _ _ _ Hd) as (Tr & Tq & Te & Tc & _ & Tk & Td).
  destruct (Tk Hl) as (Tl & Tf & Ti).
  unfold drained in *. fields.
  constructor.
  - intros Hn; congruence.
  - intros _. rewrite Ti. exact (L0 Hl).
  - intros _; exact Tq.
  - unfold drained. rewrite Td, Tq, Te, L3, map_app, map_callee_drain, app_nil_r.
    reflexivity.
  - rewrite Tf; lia.
  - rewrite Ti; exact L5.
  - rewrite Tc, Ti; exact L6.
  - rewrite Tc. left. destruct L7 as [L7 | (_ & L7 & _)]; [exact L7 | lia].
Qed.

Lemma catch_Ledger s :
  Inv s -> Ledger packageData s -> inFlight s = 1 ->
  Ledger packageData (loadRuntime_catch packageData (set_inFlight 0 s)).
Proof.
  intros HI [L1 L0 L2 L3 L4 L5 L6 L7] Hf.
  destruct (Inv_in_flight s 0 HI Hf) as (_ & Hr & Hl).
  assert (Hne : filter isError (console s) = [])
    by (destruct L7 as [L7 | (_ & L7 & _)]; [exact L7 | lia]).
  destruct (initCalls s) as [|u rest] eqn:Hi; [simpl in L4; lia|].
  simpl in L5, L6. rewrite Nat.sub_0_r in L5, L6.
  unfold loadRuntime_catch.
  destruct (tryBackup packageData (set_inFlight 0 s));
    constructor; unfold drained in *; fields;
    rewrite ?Hi, ?filter_app, ?length_app; simpl;
    rewrite ?Nat.sub_0_r, ?app_nil_r, ?Nat.add_0_r; auto;
    try (intros Hn; congruence); try lia;
    try solve [intros _ Hn; discriminate Hn];
    try solve [rewrite Nat.add_1_r; simpl; rewrite repeat_cons; f_equal; exact L5];
    try solve [left; exact Hne];
    try solve [right; rewrite Hne; auto].
Qed.

Lemma exec_Ledger fuel e s s' :
  Inv s -> Ledger packageData s ->
  exec packageData fuel e s = Some s' -> Ledger packageData s'.
Proof.
  intros HI HL He. destruct e as [c | rive | ]; simpl in He.
  - injection He as <-. eapply apiSteps_Ledger; eauto using runCall_steps.
  - destruct (inFlight s) as [|n] eqn:Hf; [discriminate|].
    destruct (Inv_in_flight s n HI Hf) as (-> & _).
    eapply then_Ledger; eauto.
  - destruct (inFlight s) as [|n] eqn:Hf; [discriminate|].
    destruct (Inv_in_flight s n HI Hf) as (-> & _).
    injection He as <-. apply catch_Ledger; auto.
Qed.

Lemma execAll_Ledger fuel es : forall s s',
  Inv s -> Ledger packageData s ->
  execAll packageData fuel es s = Some s' -> Ledger packageData s'.
Proof.
  induction es as [|e es IH]; intros s s' HI HL He; simpl in He.
  - injection He as <-; exact HL.
  - destruct (exec packageData fuel e s) as [s1|] eqn:E; [|discriminate].
    eapply IH; [eapply exec_Inv | eapply exec_Ledger | exact He]; eauto.
Qed.

Lemma reachable_Ledger s : reachable packageData s -> Ledger packageData s.
Proof.
  intros (fuel & es & He).
  eapply execAll_Ledger; [apply initial_Inv | apply initial_Ledger | exact He].
Qed.

End Bookkeeping.



Lemma readyState_reachable : reachable canvasPackage (readyState canvasPackage).
Proof.
  exists 1, [Called (GetInstance 1 []); InitResolved 7].
  vm_compute; reflexivity.
Defined.


Section Further.

Variable packageData : PackageData.



(** X3 (no callback is lost).  The callbacks pushed on the queue so far are
    exactly those the loop has called followed by those still queued, in the
    order of the pushes. *)
Theorem no_callback_lost s :
  reachable packageData s ->
  enqueued s = map callee (drained s) ++ callBackQueue s.
Proof. intros Hs. apply (led_served _ s (reachable_Ledger _ _ Hs)). Qed.

(** X4 (retries go to the fallback).  Every call of the module factory after
    the first is made with the jsdelivr fallback URL, and each of them was
    announced by one warning. *)
Theorem retries_go_to_fallback s :
  reachable packageData s ->
  tl (initCalls s)
  = repeat (backupJsdelivrUrl packageData) (List.length (initCalls s) - 1)
  /\ List.length (filter isWarn (console s)) = List.length (initCalls s) - 1.
Proof.
  intros Hs. pose proof (reachable_Ledger _ _ Hs) as HL.
  split; [apply (led_retries _ s HL) | apply (led_warns _ s HL)].
Qed.





End Further.

Section TwoAttempts.

Variable packageData : PackageData.

Hypothesis lowercase :
  toLowerCase (backupJsdelivrUrl packageData) = backupJsdelivrUrl packageData.






End TwoAttempts.

Section Attempts.

Variable packageData : PackageData.

(** X11 (what the flag means).  In every reachable state the flag is set
    exactly when the module factory has been called at least once, and the
    loads in flight are among those calls. *)
Theorem flag_means_started s :
  reachable packageData s ->
  (isLoading s = true <-> initCalls s <> [])
  /\ inFlight s <= List.length (initCalls s).
Proof.
  intros Hs. pose proof (reachable_Ledger _ _ Hs) as HL.
  split; [split|].
  - apply (led_started _ s HL).
  - intros Hn. destruct (isLoading s) eqn:E; [reflexivity|].
    destruct (led_idle _ s HL E) as [Hi _]. contradiction.
  - apply (led_flight _ s HL).
Qed.


End Attempts.

(** ** Instances of the further properties *)



Lemma no_callback_lost_witness :
  reachable canvasPackage (readyState canvasPackage)
  /\ enqueued (readyState canvasPackage)
     = map callee (drained (readyState canvasPackage))
       ++ callBackQueue (readyState canvasPackage).
Proof.
  split; [exact readyState_reachable|].
  exact (no_callback_lost canvasPackage (readyState canvasPackage)
           readyState_reachable).
Defined.

Lemma retries_go_to_fallback_witness :
  reachable canvasPackage (failedState canvasPackage)
  /\ tl (initCalls (failedState canvasPackage))
     = repeat (backupJsdelivrUrl canvasPackage)
              (List.length (initCalls (failedState canvasPackage)) - 1).
Proof.
  split; [exact failedState_reachable|].
  exact (proj1 (retries_go_to_fallback canvasPackage (failedState canvasPackage)
                  failedState_reachable)).
Defined.








Lemma candidatePackage_upper :
  hasUpper (backupJsdelivrUrl candidatePackage) = true.
Proof. vm_compute; reflexivity. Defined.

Lemma candidate_in_flight : inFlight (loadingState candidatePackage) = 1.
Proof. vm_compute; reflexivity. Defined.

Lemma retry_without_end_witness :
  hasUpper (backupJsdelivrUrl candidatePackage) = true
  /\ inFlight (loadingState candidatePackage) = 1
  /\ exists s',
       execAll candidatePackage 0 (repeat InitRejected 5)
               (loadingState candidatePackage) = Some s'
       /\ inFlight s' = 1
       /\ List.length (initCalls s')
          = List.length (initCalls (loadingState candidatePackage)) + 5
       /\ filter isError (console s')
          = filter isError (console (loadingState candidatePackage)).
Proof.
  split; [exact candidatePackage_upper|]. split; [exact candidate_in_flight|].
  exact (retry_without_end candidatePackage 0 candidatePackage_upper 5
           (loadingState candidatePackage) candidate_in_flight).
Defined.




Lemma flag_means_started_witness :
  reachable canvasPackage (failedState canvasPackage)
  /\ (isLoading (failedState canvasPackage) = true
      <-> initCalls (failedState canvasPackage) <> []).
Proof.
  split; [exact failedState_reachable|].
  exact (proj1 (flag_means_started canvasPackage (failedState canvasPackage)
                  failedState_reachable)).
Defined.


